(** * zbessel.cc: the C-linkage entry points of the zbessel library

    [zbessel.cc] exports seven functions with C linkage ([zbesh], [zbesi],
    [zbesj], [zbesk], [zbesy], [zairy], [zbiry]).  Each one is a single
    [return zbessel::f(...)] statement.  This development embeds the seven
    functions in a small monad of C computations (memory, non-returning
    calls, a trace of what the function itself does), states what the
    interface description says about them, and settles each statement. *)

From Stdlib Require Import ZArith Bool Lia String PrimFloat.
From stdpp Require Import base option list gmap strings.

Local Open Scope Z_scope.

(** ** C data *)

(** A C [int].  The entry points do no integer arithmetic, they only pass
    [int]s on, so no wrap-around is involved. *)
Definition cint : Type := Z.

(** A [double] is an IEEE 754 binary64 number: Rocq's primitive floats. *)
Definition double : Type := float.

(** Pointers.  A [double *] and an [int *] are distinct types, and objects of
    the two types live in separate address spaces: they never alias.  Address
    [0] is the null pointer. *)
Record dptr : Type := DPtr { daddr : Z }.
Record iptr : Type := IPtr { iaddr : Z }.

Definition dnull : dptr := DPtr 0.
Definition inull : iptr := IPtr 0.

(** [p + k] on a [double *], in units of [double]. *)
Definition dptr_add (p : dptr) (k : Z) : dptr := DPtr (daddr p + k).

(** The four parameter types that occur in [zbessel.cc]. *)
Inductive ctype : Type := TDouble | TInt | TDoublePtr | TIntPtr.

Definition denote (t : ctype) : Type :=
  match t with
  | TDouble => double
  | TInt => cint
  | TDoublePtr => dptr
  | TIntPtr => iptr
  end.

(** An argument as it is passed in a call. *)
Inductive value : Type :=
| VDouble (d : double)
| VInt (i : cint)
| VDPtr (p : dptr)
| VIPtr (p : iptr).

Definition inject (t : ctype) : denote t -> value :=
  match t with
  | TDouble => VDouble
  | TInt => VInt
  | TDoublePtr => VDPtr
  | TIntPtr => VIPtr
  end.

Definition project (t : ctype) (v : value) : option (denote t) :=
  match t, v with
  | TDouble, VDouble d => Some d
  | TInt, VInt i => Some i
  | TDoublePtr, VDPtr p => Some p
  | TIntPtr, VIPtr p => Some p
  | _, _ => None
  end.

Definition has_type (v : value) (t : ctype) : bool :=
  match t, v with
  | TDouble, VDouble _ | TInt, VInt _ | TDoublePtr, VDPtr _ | TIntPtr, VIPtr _ => true
  | _, _ => false
  end.

Fixpoint well_typed (vs : list value) (ts : list ctype) : bool :=
  match vs, ts with
  | [], [] => true
  | v :: vs', t :: ts' => has_type v t && well_typed vs' ts'
  | _, _ => false
  end.

(** ** The declarations of [zbessel.cc] *)

Inductive entry : Type := Zbesh | Zbesi | Zbesj | Zbesk | Zbesy | Zairy | Zbiry.

Definition all_entries : list entry := [Zbesh; Zbesi; Zbesj; Zbesk; Zbesy; Zairy; Zbiry].

Definition entry_eqb (a b : entry) : bool :=
  match a, b with
  | Zbesh, Zbesh | Zbesi, Zbesi | Zbesj, Zbesj | Zbesk, Zbesk
  | Zbesy, Zbesy | Zairy, Zairy | Zbiry, Zbiry => true
  | _, _ => false
  end.

Definition param : Type := ctype * string.

(** The parameter list of each exported function, as declared. *)
Definition params (e : entry) : list param :=
  (match e with
  | Zbesh =>
      [(TDouble, "zr"); (TDouble, "zi"); (TDouble, "fnu"); (TInt, "kode"); (TInt, "m");
       (TInt, "n"); (TDoublePtr, "cyr"); (TDoublePtr, "cyi"); (TIntPtr, "nz")]
  | Zbesi | Zbesj | Zbesk =>
      [(TDouble, "zr"); (TDouble, "zi"); (TDouble, "fnu"); (TInt, "kode"); (TInt, "n");
       (TDoublePtr, "cyr"); (TDoublePtr, "cyi"); (TIntPtr, "nz")]
  | Zbesy =>
      [(TDouble, "zr"); (TDouble, "zi"); (TDouble, "fnu"); (TInt, "kode"); (TInt, "n");
       (TDoublePtr, "cyr"); (TDoublePtr, "cyi"); (TIntPtr, "nz");
       (TDoublePtr, "cwrkr"); (TDoublePtr, "cwrki")]
  | Zairy =>
      [(TDouble, "zr"); (TDouble, "zi"); (TInt, "id"); (TInt, "kode");
       (TDoublePtr, "air"); (TDoublePtr, "aii"); (TIntPtr, "nz")]
  | Zbiry =>
      [(TDouble, "zr"); (TDouble, "zi"); (TInt, "id"); (TInt, "kode");
       (TDoublePtr, "bir"); (TDoublePtr, "bii")]
  end)%string.

Definition param_types (e : entry) : list ctype := map fst (params e).
Definition param_names (e : entry) : list string := map snd (params e).

(** Every exported function is declared [int f(...)]. *)
Definition return_type (e : entry) : ctype := TInt.

(** The Rocq type of a C function with parameters [ts] and body type [R]. *)
Fixpoint arrow (ts : list ctype) (R : Type) : Type :=
  match ts with
  | [] => R
  | t :: ts' => denote t -> arrow ts' R
  end.

Definition cfun (e : entry) (R : Type) : Type := arrow (param_types e) R.

(** Gathering the actual arguments of a call, first to last. *)
Fixpoint collect (ts : list ctype) {R : Type} : (list value -> R) -> arrow ts R :=
  match ts with
  | [] => fun k => k []
  | t :: ts' => fun k x => collect ts' (fun vs => k (inject t x :: vs))
  end.

(** Applying a C function to a list of actual arguments; [None] when the list
    does not fit the parameter types. *)
Fixpoint uncurry (ts : list ctype) {R : Type} : arrow ts R -> list value -> option R :=
  match ts with
  | [] => fun r vs => match vs with [] => Some r | _ :: _ => None end
  | t :: ts' => fun f vs =>
      match vs with
      | [] => None
      | v :: vs' =>
          match project t v with
          | Some x => uncurry ts' (f x) vs'
          | None => None
          end
      end
  end.

(** ** Memory and computations *)

Record mem : Type := Mem { doubles : gmap Z double; ints : gmap Z cint }.

(** What a function does that its caller can tell apart from its result: it
    calls a routine of namespace [zbessel], or it reads or writes an object
    through a pointer. *)
Inductive event : Type :=
| EvCall (e : entry) (args : list value)
| EvLoadDouble (p : dptr)
| EvLoadInt (p : iptr)
| EvStoreDouble (p : dptr) (d : double)
| EvStoreInt (p : iptr) (i : cint).

Definition is_call (ev : event) : bool :=
  match ev with EvCall _ _ => true | _ => false end.

Definition is_access (ev : event) : bool := negb (is_call ev).

(** A computation runs on a memory; it yields the events it performed and,
    when it returns, a result and the memory it leaves.  [None] stands for a
    computation that does not return normally (a trap on an invalid access,
    a callee that does not return). *)
Definition M (A : Type) : Type := mem -> list event * option (A * mem).

Definition ret {A : Type} (a : A) : M A := fun m => ([], Some (a, m)).

Definition bind {A B : Type} (x : M A) (f : A -> M B) : M B := fun m =>
  match x m with
  | (t1, None) => (t1, None)
  | (t1, Some (a, m1)) =>
      match f a m1 with
      | (t2, r) => (t1 ++ t2, r)
      end
  end.

Declare Scope cmonad_scope.
Delimit Scope cmonad_scope with cmonad.
Notation "x <- c1 ;; c2" := (bind c1 (fun x => c2))
  (at level 100, c1 at next level, right associativity) : cmonad_scope.
Notation "c1 ;; c2" := (bind c1 (fun _ => c2))
  (at level 100, right associativity) : cmonad_scope.

Definition events {A : Type} (r : list event * option (A * mem)) : list event := fst r.
Definition outcome {A : Type} (r : list event * option (A * mem)) : option (A * mem) := snd r.

(** An object can be accessed when its address is not null and is allocated. *)
Definition load_double (p : dptr) : M double := fun m =>
  ([EvLoadDouble p],
   if decide (daddr p = 0) then None
   else match doubles m !! daddr p with
        | Some d => Some (d, m)
        | None => None
        end).

Definition load_int (p : iptr) : M cint := fun m =>
  ([EvLoadInt p],
   if decide (iaddr p = 0) then None
   else match ints m !! iaddr p with
        | Some i => Some (i, m)
        | None => None
        end).

Definition store_double (p : dptr) (d : double) : M unit := fun m =>
  ([EvStoreDouble p d],
   if decide (daddr p = 0) then None
   else match doubles m !! daddr p with
        | Some _ => Some (tt, Mem (<[daddr p := d]> (doubles m)) (ints m))
        | None => None
        end).

Definition store_int (p : iptr) (i : cint) : M unit := fun m =>
  ([EvStoreInt p i],
   if decide (iaddr p = 0) then None
   else match ints m !! iaddr p with
        | Some _ => Some (tt, Mem (doubles m) (<[iaddr p := i]> (ints m)))
        | None => None
        end).

(** ** Namespace [zbessel]: the core routines

    The core routines are declared in [zbessel.hh] and defined elsewhere; the
    file under study only calls them.  A core is any function from the routine
    called, its actual arguments and the memory to a status and a memory, or
    to [None] when the routine does not return.  Each routine is called with
    the parameter list of the exported function of the same name. *)
Definition core_sem : Type := entry -> list value -> mem -> option (cint * mem).

Definition call_core (core : core_sem) (e : entry) (args : list value) : M cint :=
  fun m => ([EvCall e args], core e args m).

Module zbessel.
Section Routines.
Variable core : core_sem.

Definition zbesh : cfun Zbesh (M cint) := collect (param_types Zbesh) (call_core core Zbesh).
Definition zbesi : cfun Zbesi (M cint) := collect (param_types Zbesi) (call_core core Zbesi).
Definition zbesj : cfun Zbesj (M cint) := collect (param_types Zbesj) (call_core core Zbesj).
Definition zbesk : cfun Zbesk (M cint) := collect (param_types Zbesk) (call_core core Zbesk).
Definition zbesy : cfun Zbesy (M cint) := collect (param_types Zbesy) (call_core core Zbesy).
Definition zairy : cfun Zairy (M cint) := collect (param_types Zairy) (call_core core Zairy).
Definition zbiry : cfun Zbiry (M cint) := collect (param_types Zbiry) (call_core core Zbiry).
End Routines.
End zbessel.

(** ** The exported functions, [extern "C"] *)

Section Exported.
Variable core : core_sem.

Definition zbesh : cfun Zbesh (M cint) :=
  fun zr zi fnu kode m n cyr cyi nz =>
    zbessel.zbesh core zr zi fnu kode m n cyr cyi nz.

Definition zbesi : cfun Zbesi (M cint) :=
  fun zr zi fnu kode n cyr cyi nz =>
    zbessel.zbesi core zr zi fnu kode n cyr cyi nz.

Definition zbesj : cfun Zbesj (M cint) :=
  fun zr zi fnu kode n cyr cyi nz =>
    zbessel.zbesj core zr zi fnu kode n cyr cyi nz.

Definition zbesk : cfun Zbesk (M cint) :=
  fun zr zi fnu kode n cyr cyi nz =>
    zbessel.zbesk core zr zi fnu kode n cyr cyi nz.

Definition zbesy : cfun Zbesy (M cint) :=
  fun zr zi fnu kode n cyr cyi nz cwrkr cwrki =>
    zbessel.zbesy core zr zi fnu kode n cyr cyi nz cwrkr cwrki.

Definition zairy : cfun Zairy (M cint) :=
  fun zr zi id kode air aii nz =>
    zbessel.zairy core zr zi id kode air aii nz.

Definition zbiry : cfun Zbiry (M cint) :=
  fun zr zi id kode bir bii =>
    zbessel.zbiry core zr zi id kode bir bii.

(** The exported function of each name. *)
Definition exported (e : entry) : cfun e (M cint) :=
  match e with
  | Zbesh => zbesh
  | Zbesi => zbesi
  | Zbesj => zbesj
  | Zbesk => zbesk
  | Zbesy => zbesy
  | Zairy => zairy
  | Zbiry => zbiry
  end.

(** A call [f(args)] of an exported function from C. *)
Definition invoke (e : entry) (args : list value) : option (M cint) :=
  uncurry (param_types e) (exported e) args.
End Exported.

(** ** What the declarations say *)

Definition has_param (e : entry) (name : string) : bool :=
  existsb (String.eqb name) (param_names e).

(** An entry point produces an order run when it takes a count [n] and the two
    output arrays [cyr] and [cyi]. *)
Definition produces_run (e : entry) : bool :=
  has_param e "n" && has_param e "cyr" && has_param e "cyi".

(** The underflow count is the [int *nz] output parameter. *)
Definition has_nz_output (e : entry) : bool :=
  existsb (fun p => match p with (TIntPtr, name) => String.eqb name "nz" | _ => false end)
          (params e).

(** The scratch buffers are the work arrays [cwrkr] and [cwrki]. *)
Definition takes_scratch (e : entry) : bool :=
  existsb (fun p => match p with
                    | (TDoublePtr, name) => String.eqb name "cwrkr" || String.eqb name "cwrki"
                    | _ => false
                    end)
          (params e).

Definition is_pointer (v : value) : bool :=
  match v with VDPtr _ | VIPtr _ => true | _ => false end.

Definition pointer_args (args : list value) : list value := filter (fun v => is_pointer v = true) args.

(** The arguments the core received, call by call. *)
Definition calls (t : list event) : list (entry * list value) :=
  omap (fun ev => match ev with EvCall e args => Some (e, args) | _ => None end) t.

(** The accesses through pointers that the function made itself. *)
Definition accesses (t : list event) : list event := filter (fun ev => is_access ev = true) t.


(** ** The core drivers, as the design description gives them

    The numerical core behind namespace [zbessel] is not part of the file
    under study.  What follows is the driver of the design description (its
    section 4.4, with the data model of section 3 and the error taxonomy of
    section 7), written over the same memory: a core that reads its
    arguments, stores through the pointers it is given and traps on a null
    one, on which the exported functions can be run. *)

(** Modelled from the spec: one entry of an order run as steps 2 to 5 of the
    driver deliver it (the kernels and recurrences of sections 4.2 and 4.3,
    which are missing): the value after [kode] scaling, and whether the true
    (unscaled) magnitude is below the smallest representable positive
    double. *)
Record run_entry : Type := RunEntry { re : double; im : double; underflows : bool }.

(** Modelled from the spec: what steps 2 to 5 of a run-producing driver (which
    is missing) deliver: a status, the entries of the run up to the point
    where an overflow stops it (section 7 (b): entries beyond the overflow
    point are unset), and what the driver leaves in the scratch buffers of the
    Y entry point. *)
Record evaluation : Type :=
  Evaluation { ev_status : cint; ev_run : list run_entry; ev_work : list (double * double) }.

(** Modelled from the spec: what the single-value Airy drivers (which are
    missing) compute: a status and one complex value. *)
Record airy_evaluation : Type := AiryEvaluation { ai_status : cint; ai_re : double; ai_im : double }.

(** Modelled from the spec: section 3, the number of leading entries of the
    order run whose true value underflows (the count the missing driver
    accumulates in step 6). *)
Fixpoint leading_underflows (run : list run_entry) : nat :=
  match run with
  | [] => O
  | x :: run' => if underflows x then S (leading_underflows run') else O
  end.

(** Modelled from the spec: writing a sequence of doubles into a
    caller-provided output sequence, as the missing driver does when it fills
    a run (section 3: real and imaginary parts stored separately). *)
Fixpoint store_doubles (p : dptr) (ds : list double) : M unit :=
  match ds with
  | [] => ret tt
  | d :: ds' => (store_double p d ;; store_doubles (dptr_add p 1) ds')%cmonad
  end.

Section Drivers.
(** The allowed enumeration of the scaling mode: the description names the
    two modes, not their encoding. *)
Variable kode_allowed : cint -> bool.
(** The status of an input error. *)
Variable input_error : cint.
(** Steps 2 to 5: floating-point evaluation, left open. *)
Variable evaluate : entry -> double -> double -> double -> cint -> option cint -> cint -> evaluation.
Variable evaluate_airy : entry -> double -> double -> cint -> cint -> airy_evaluation.

(** Modelled from the spec: step 1 of the missing drivers, which validates
    [fnu >= 0], [n >= 1] and [kode] in its enumeration; an order for which
    [fnu >= 0] does not hold (a negative one, or a NaN) is an input error. *)
Definition run_input_error (fnu : double) (kode n : cint) : bool :=
  negb (0 <=? fnu)%float || (n <? 1) || negb (kode_allowed kode).

(** Modelled from the spec: section 3, the kind selector of the missing
    Hankel driver is 1 or 2. *)
Definition m_allowed (m : cint) : bool := (m =? 1) || (m =? 2).

(** Modelled from the spec: section 3, the kind selector of the missing Airy
    drivers is 0 or 1. *)
Definition id_allowed (id : cint) : bool := (id =? 0) || (id =? 1).

(** Modelled from the spec: steps 4 to 7 of the missing run-producing
    drivers: the run is filled into the output sequences (at most [n]
    entries), then underflow is detected: the leading underflowing entries
    are set to (0,0) and counted into [nz]; the status is returned. *)
Definition finish_run (r : evaluation) (n : cint) (cyr cyi : dptr) (nz : iptr) : M cint :=
  let run := take (Z.to_nat n) (ev_run r) in
  let k := leading_underflows run in
  (store_doubles cyr (map re run) ;;
   store_doubles cyi (map im run) ;;
   store_doubles cyr (replicate k 0%float) ;;
   store_doubles cyi (replicate k 0%float) ;;
   store_int nz (Z.of_nat k) ;;
   ret (ev_status r))%cmonad.

(** Modelled from the spec: the missing drivers of I, J and K (section 4.4):
    validation first, an input error is reported at once with nothing
    computed; otherwise evaluation and the underflow accounting. *)
Definition run_driver (e : entry) (zr zi fnu : double) (kode n : cint)
    (cyr cyi : dptr) (nz : iptr) : M cint :=
  if run_input_error fnu kode n then ret input_error
  else finish_run (evaluate e zr zi fnu kode None n) n cyr cyi nz.

(** Modelled from the spec: the missing Hankel driver, which validates the
    kind selector [m] as well. *)
Definition hankel_driver (zr zi fnu : double) (kode m n : cint)
    (cyr cyi : dptr) (nz : iptr) : M cint :=
  if run_input_error fnu kode n || negb (m_allowed m) then ret input_error
  else finish_run (evaluate Zbesh zr zi fnu kode (Some m) n) n cyr cyi nz.

(** Modelled from the spec: the missing Y driver, which also uses the
    caller-provided scratch buffers as working storage. *)
Definition y_driver (zr zi fnu : double) (kode n : cint)
    (cyr cyi : dptr) (nz : iptr) (cwrkr cwrki : dptr) : M cint :=
  if run_input_error fnu kode n then ret input_error
  else
    let r := evaluate Zbesy zr zi fnu kode None n in
    let work := take (Z.to_nat n) (ev_work r) in
    (store_doubles cwrkr (map fst work) ;;
     store_doubles cwrki (map snd work) ;;
     finish_run r n cyr cyi nz)%cmonad.

(** Modelled from the spec: the missing Airy drivers: validation of [id] and
    [kode]; a single value on success; any error is fatal and leaves the
    outputs alone; no underflow count. *)
Definition airy_driver (e : entry) (zr zi : double) (id kode : cint) (ar ai : dptr) : M cint :=
  if negb (id_allowed id) || negb (kode_allowed kode) then ret input_error
  else
    let r := evaluate_airy e zr zi id kode in
    if ai_status r =? 0
    then (store_double ar (ai_re r) ;; store_double ai (ai_im r) ;; ret 0)%cmonad
    else ret (ai_status r).

(** Modelled from the spec: the missing routine of namespace [zbessel] behind
    each entry point, with the entry point's parameter list (section 6). *)
Definition driver (e : entry) : cfun e (M cint) :=
  match e with
  | Zbesh => hankel_driver
  | Zbesi => run_driver Zbesi
  | Zbesj => run_driver Zbesj
  | Zbesk => run_driver Zbesk
  | Zbesy => y_driver
  | Zairy => fun zr zi id kode air aii _ => airy_driver Zairy zr zi id kode air aii
  | Zbiry => airy_driver Zbiry
  end.

(** Modelled from the spec: the missing core as a whole: a call runs the
    driver on the memory; what the driver does inside is not an event of
    the caller. *)
Definition spec_core : core_sem := fun e args m =>
  match uncurry (param_types e) (driver e) args with
  | Some p => outcome (p m)
  | None => None
  end.
End Drivers.

(** ** Concrete instances, used to run the definitions *)

Module Demo.
(** The two scaling modes, encoded 0 and 1. *)
Definition kode_allowed (k : cint) : bool := (k =? 0) || (k =? 1).

Definition input_error : cint := -1.

(** A stand-in for the numerical evaluation: a run whose first two entries
    underflow. *)
Definition evaluate (e : entry) (zr zi fnu : double) (kode : cint) (m : option cint)
    (n : cint) : evaluation :=
  Evaluation 0
    [RunEntry 0.125%float 0.5%float true; RunEntry 0.25%float 1%float true;
     RunEntry 2%float 3%float false; RunEntry 4%float 5%float true]
    [(6%float, 7%float); (8%float, 9%float)].

Definition evaluate_airy (e : entry) (zr zi : double) (id kode : cint) : airy_evaluation :=
  AiryEvaluation 0 0.375%float 0%float.

Definition core : core_sem := spec_core kode_allowed input_error evaluate evaluate_airy.

(** A core that accepts every call, touches nothing and reports 0. *)
Definition silent_core : core_sem := fun _ _ m => Some (0, m).

(** Output sequences of four doubles at 100 and 200, scratch buffers at 400
    and 500, one [int] at 300. *)
Definition cyr : dptr := DPtr 100.
Definition cyi : dptr := DPtr 200.
Definition cwrkr : dptr := DPtr 400.
Definition cwrki : dptr := DPtr 500.
Definition nz : iptr := IPtr 300.

Definition block (base : Z) : list (Z * double) :=
  [(base, 1%float); (base + 1, 1%float); (base + 2, 1%float); (base + 3, 1%float)].

Definition memory : mem :=
  Mem (list_to_map (block 100 ++ block 200 ++ block 400 ++ block 500)) (list_to_map [(300, 0)]).

(** The memory after a valid call with [n = 3]. *)
Definition memory_after : mem :=
  Mem (list_to_map ([(100, 0%float); (101, 0%float); (102, 2%float); (103, 1%float)] ++
                    [(200, 0%float); (201, 0%float); (202, 3%float); (203, 1%float)] ++
                    block 400 ++ block 500))
      (list_to_map [(300, 2)]).

Definition empty_memory : mem := Mem ∅ ∅.
End Demo.
(** ** Callers: sequences of calls

    A C caller makes calls one after the other.  [call_all] is such a caller,
    [f1(args1); f2(args2); ...], collecting the statuses; it is ill-formed
    ([None]) when some argument list does not fit the declaration of the
    function called. *)
Definition request : Type := entry * list value.

Fixpoint call_all (call : entry -> list value -> option (M cint)) (cs : list request) :
    option (M (list cint)) :=
  match cs with
  | [] => Some (ret [])
  | (e, args) :: cs' =>
      match call e args, call_all call cs' with
      | Some p, Some rest => Some (s <- p ;; ss <- rest ;; ret (s :: ss))%cmonad
      | _, _ => None
      end
  end.

(** The core run on the same requests with nothing in between: the memory one
    call leaves is the memory of the next, and a call that does not return
    ends the run. *)
Fixpoint core_fold (core : core_sem) (cs : list request) (m : mem) : option (list cint * mem) :=
  match cs with
  | [] => Some ([], m)
  | (e, args) :: cs' =>
      match core e args m with
      | None => None
      | Some (s, m1) =>
          match core_fold core cs' m1 with
          | Some (ss, m2) => Some (s :: ss, m2)
          | None => None
          end
      end
  end.

(** The number of parameters each exported function is declared with. *)
Definition arity (e : entry) : nat :=
  match e with
  | Zbesh => 9
  | Zbesi | Zbesj | Zbesk => 8
  | Zbesy => 10
  | Zairy => 7
  | Zbiry => 6
  end.

Module DemoCalls.
(** A valid call of [zbesj] with [n = 3], and the same call with a null
    output pointer, on which the core of [Demo] traps. *)
Definition good : request :=
  (Zbesj, [VDouble 1%float; VDouble 0%float; VDouble 0%float; VInt 1; VInt 3;
           VDPtr Demo.cyr; VDPtr Demo.cyi; VIPtr Demo.nz]).

Definition bad : request :=
  (Zbesj, [VDouble 1%float; VDouble 0%float; VDouble 0%float; VInt 1; VInt 3;
           VDPtr dnull; VDPtr Demo.cyi; VIPtr Demo.nz]).

Definition airy : request :=
  (Zairy, [VDouble 1%float; VDouble 0%float; VInt 0; VInt 1;
           VDPtr Demo.cyr; VDPtr Demo.cyi; VIPtr Demo.nz]).

(** A core that reports 0 and sets the [int] at 300 to 1 on every call. *)
Definition tick_core : core_sem := fun _ _ m =>
  Some (0, Mem (doubles m) (<[300 := 1]> (ints m))).
End DemoCalls.

Module DemoState.

Definition args : list value :=
  [VDouble 1%float; VDouble 0%float; VDouble 0%float; VInt 1; VInt 3;
   VDPtr Demo.cyr; VDPtr Demo.cyi; VIPtr Demo.nz].

End DemoState.

Lemma uncurry_collect (ts : list ctype) (R : Type) (k : list value -> R) (vs : list value) :
  well_typed vs ts = true -> uncurry ts (collect ts k) vs = Some (k vs).
Proof.
  revert R k vs. induction ts as [|t ts IH]; intros R k [|v vs] Hwt; simpl in *; try done.
  apply andb_true_iff in Hwt as [Hv Hvs].
  destruct t, v; simpl in *; try done; by rewrite IH.
Qed.

Lemma exported_forwards (core : core_sem) (e : entry) :
  exported core e = collect (param_types e) (call_core core e).
Proof. by destruct e. Qed.

Lemma invoke_call_core (core : core_sem) (e : entry) (args : list value) :
  well_typed args (param_types e) = true ->
  invoke core e args = Some (call_core core e args).
Proof.
  intros Hwt. unfold invoke. rewrite exported_forwards. by apply uncurry_collect.
Qed.

Lemma run_call_core (core : core_sem) (e : entry) (args : list value) (m0 : mem) :
  call_core core e args m0 = ([EvCall e args], core e args m0).
Proof. reflexivity. Qed.

(** ** The exported functions against the core *)

(** C1: each of the seven exported functions is the core routine of the same
    name applied to the same arguments in the same order: the two are equal
    as computations, and what a call yields (the status and the memory, or no
    return) is exactly what the core yields on those arguments. *)
Theorem exported_equal_core (core : core_sem) :
  (forall zr zi fnu kode m n cyr cyi nz (m0 : mem),
      zbesh core zr zi fnu kode m n cyr cyi nz = zbessel.zbesh core zr zi fnu kode m n cyr cyi nz /\
      outcome (zbesh core zr zi fnu kode m n cyr cyi nz m0) =
        core Zbesh [VDouble zr; VDouble zi; VDouble fnu; VInt kode; VInt m; VInt n;
                    VDPtr cyr; VDPtr cyi; VIPtr nz] m0) /\
  (forall zr zi fnu kode n cyr cyi nz (m0 : mem),
      zbesi core zr zi fnu kode n cyr cyi nz = zbessel.zbesi core zr zi fnu kode n cyr cyi nz /\
      outcome (zbesi core zr zi fnu kode n cyr cyi nz m0) =
        core Zbesi [VDouble zr; VDouble zi; VDouble fnu; VInt kode; VInt n;
                    VDPtr cyr; VDPtr cyi; VIPtr nz] m0) /\
  (forall zr zi fnu kode n cyr cyi nz (m0 : mem),
      zbesj core zr zi fnu kode n cyr cyi nz = zbessel.zbesj core zr zi fnu kode n cyr cyi nz /\
      outcome (zbesj core zr zi fnu kode n cyr cyi nz m0) =
        core Zbesj [VDouble zr; VDouble zi; VDouble fnu; VInt kode; VInt n;
                    VDPtr cyr; VDPtr cyi; VIPtr nz] m0) /\
  (forall zr zi fnu kode n cyr cyi nz (m0 : mem),
      zbesk core zr zi fnu kode n cyr cyi nz = zbessel.zbesk core zr zi fnu kode n cyr cyi nz /\
      outcome (zbesk core zr zi fnu kode n cyr cyi nz m0) =
        core Zbesk [VDouble zr; VDouble zi; VDouble fnu; VInt kode; VInt n;
                    VDPtr cyr; VDPtr cyi; VIPtr nz] m0) /\
  (forall zr zi fnu kode n cyr cyi nz cwrkr cwrki (m0 : mem),
      zbesy core zr zi fnu kode n cyr cyi nz cwrkr cwrki =
        zbessel.zbesy core zr zi fnu kode n cyr cyi nz cwrkr cwrki /\
      outcome (zbesy core zr zi fnu kode n cyr cyi nz cwrkr cwrki m0) =
        core Zbesy [VDouble zr; VDouble zi; VDouble fnu; VInt kode; VInt n;
                    VDPtr cyr; VDPtr cyi; VIPtr nz; VDPtr cwrkr; VDPtr cwrki] m0) /\
  (forall zr zi id kode air aii nz (m0 : mem),
      zairy core zr zi id kode air aii nz = zbessel.zairy core zr zi id kode air aii nz /\
      outcome (zairy core zr zi id kode air aii nz m0) =
        core Zairy [VDouble zr; VDouble zi; VInt id; VInt kode;
                    VDPtr air; VDPtr aii; VIPtr nz] m0) /\
  (forall zr zi id kode bir bii (m0 : mem),
      zbiry core zr zi id kode bir bii = zbessel.zbiry core zr zi id kode bir bii /\
      outcome (zbiry core zr zi id kode bir bii m0) =
        core Zbiry [VDouble zr; VDouble zi; VInt id; VInt kode; VDPtr bir; VDPtr bii] m0).
Proof. repeat split. Qed.

(** C9: a call of an exported function, whatever its arguments, performs
    exactly one call of the core routine of the same name, on the arguments
    as given, and yields what that call yields: nothing is checked or
    rejected before the core is reached. *)
Theorem exported_calls_core_once (core : core_sem) (e : entry) (args : list value) (m0 : mem) :
  well_typed args (param_types e) = true ->
  exists p : M cint,
    invoke core e args = Some p /\
    events (p m0) = [EvCall e args] /\
    calls (events (p m0)) = [(e, args)] /\
    outcome (p m0) = core e args m0.
Proof.
  intros Hwt. exists (call_core core e args).
  split; [by apply invoke_call_core|]. by rewrite run_call_core.
Qed.

(** A call with a negative order, a count of zero and modes outside every
    enumeration still reaches the core, and a core that accepts it decides the
    status. *)
Lemma exported_calls_core_once_witness :
  exists p : M cint,
    invoke Demo.silent_core Zbesh
      [VDouble (-1)%float; VDouble 0%float; VDouble (-2)%float; VInt 7; VInt 5; VInt 0;
       VDPtr Demo.cyr; VDPtr Demo.cyi; VIPtr Demo.nz] = Some p /\
    events (p Demo.memory) =
      [EvCall Zbesh [VDouble (-1)%float; VDouble 0%float; VDouble (-2)%float; VInt 7; VInt 5;
                     VInt 0; VDPtr Demo.cyr; VDPtr Demo.cyi; VIPtr Demo.nz]] /\
    calls (events (p Demo.memory)) =
      [(Zbesh, [VDouble (-1)%float; VDouble 0%float; VDouble (-2)%float; VInt 7; VInt 5;
                VInt 0; VDPtr Demo.cyr; VDPtr Demo.cyi; VIPtr Demo.nz])] /\
    outcome (p Demo.memory) = Some (0, Demo.memory).
Proof.
  apply (exported_calls_core_once Demo.silent_core Zbesh
           [VDouble (-1)%float; VDouble 0%float; VDouble (-2)%float; VInt 7; VInt 5; VInt 0;
            VDPtr Demo.cyr; VDPtr Demo.cyi; VIPtr Demo.nz] Demo.memory).
  reflexivity.
Defined.

(** C10: an exported function makes no access through any pointer it is
    given: its own events contain no load and no store, they are the same on
    every memory, and the core receives the pointers as they were passed, a
    null pointer included. *)
Theorem exported_no_pointer_access (core : core_sem) (e : entry) (args : list value) (m0 : mem) :
  well_typed args (param_types e) = true ->
  exists p : M cint,
    invoke core e args = Some p /\
    accesses (events (p m0)) = [] /\
    (forall m1 : mem, events (p m1) = events (p m0)) /\
    (exists received : list value,
        calls (events (p m0)) = [(e, received)] /\
        pointer_args received = pointer_args args) /\
    outcome (p m0) = core e args m0.
Proof.
  intros Hwt. exists (call_core core e args).
  split; [by apply invoke_call_core|].
  repeat split; try done. by exists args.
Qed.

Lemma exported_no_pointer_access_witness :
  exists p : M cint,
    invoke Demo.silent_core Zbesy
      [VDouble 1%float; VDouble 0%float; VDouble 0%float; VInt 1; VInt 1;
       VDPtr dnull; VDPtr dnull; VIPtr inull; VDPtr dnull; VDPtr dnull] = Some p /\
    accesses (events (p Demo.empty_memory)) = [] /\
    (forall m1 : mem, events (p m1) = events (p Demo.empty_memory)) /\
    (exists received : list value,
        calls (events (p Demo.empty_memory)) = [(Zbesy, received)] /\
        pointer_args received =
          pointer_args [VDouble 1%float; VDouble 0%float; VDouble 0%float; VInt 1; VInt 1;
                        VDPtr dnull; VDPtr dnull; VIPtr inull; VDPtr dnull; VDPtr dnull]) /\
    outcome (p Demo.empty_memory) = Some (0, Demo.empty_memory).
Proof.
  apply (exported_no_pointer_access Demo.silent_core Zbesy
           [VDouble 1%float; VDouble 0%float; VDouble 0%float; VInt 1; VInt 1;
            VDPtr dnull; VDPtr dnull; VIPtr inull; VDPtr dnull; VDPtr dnull] Demo.empty_memory).
  reflexivity.
Defined.



(** ** The parameter lists *)

(** C6: the Bessel Y entry point takes the common inputs [zr], [zi], [fnu],
    [kode], [n], the outputs [cyr], [cyi], [nz], and two more [double *]
    parameters, the scratch buffers [cwrkr] and [cwrki], which it hands to
    the core last; among the seven entry points it alone takes scratch
    buffers. *)
Theorem zbesy_scratch_buffers (core : core_sem) :
  params Zbesy = params Zbesj ++ [(TDoublePtr, "cwrkr"%string); (TDoublePtr, "cwrki"%string)] /\
  params Zbesj =
    [(TDouble, "zr"); (TDouble, "zi"); (TDouble, "fnu"); (TInt, "kode"); (TInt, "n");
     (TDoublePtr, "cyr"); (TDoublePtr, "cyi"); (TIntPtr, "nz")]%string /\
  (forall e : entry, takes_scratch e = entry_eqb e Zbesy) /\
  filter (fun e => takes_scratch e = true) all_entries = [Zbesy] /\
  (forall zr zi fnu kode n cyr cyi nz cwrkr cwrki (m0 : mem),
      events (zbesy core zr zi fnu kode n cyr cyi nz cwrkr cwrki m0) =
        [EvCall Zbesy [VDouble zr; VDouble zi; VDouble fnu; VInt kode; VInt n;
                       VDPtr cyr; VDPtr cyi; VIPtr nz; VDPtr cwrkr; VDPtr cwrki]]).
Proof.
  split; [reflexivity|]. split; [reflexivity|].
  split; [by intros []|]. split; reflexivity.
Qed.

(** C7: the Hankel entry point takes [zr], [zi], [fnu], [kode], the kind
    selector [m] and [n], and the outputs [cyr], [cyi] (the run) and [nz];
    among the entry points that produce a run it alone has the parameter
    [m], which it hands to the core between [kode] and [n]; what a call
    yields (the status, and the run and [nz] in the memory) is what the core
    yields on those nine arguments. *)
Theorem zbesh_kind_selector (core : core_sem) :
  params Zbesh =
    [(TDouble, "zr"); (TDouble, "zi"); (TDouble, "fnu"); (TInt, "kode"); (TInt, "m");
     (TInt, "n"); (TDoublePtr, "cyr"); (TDoublePtr, "cyi"); (TIntPtr, "nz")]%string /\
  produces_run Zbesh = true /\ has_nz_output Zbesh = true /\
  filter (fun e => produces_run e = true) all_entries = [Zbesh; Zbesi; Zbesj; Zbesk; Zbesy] /\
  (forall e : entry, produces_run e && has_param e "m" = entry_eqb e Zbesh) /\
  (forall zr zi fnu kode m n cyr cyi nz (m0 : mem),
      zbesh core zr zi fnu kode m n cyr cyi nz m0 =
        ([EvCall Zbesh [VDouble zr; VDouble zi; VDouble fnu; VInt kode; VInt m; VInt n;
                        VDPtr cyr; VDPtr cyi; VIPtr nz]],
         core Zbesh [VDouble zr; VDouble zi; VDouble fnu; VInt kode; VInt m; VInt n;
                     VDPtr cyr; VDPtr cyi; VIPtr nz] m0)).
Proof.
  repeat (split; [reflexivity|]).
  split; [by intros []|]. reflexivity.
Qed.

(** C8: [zbiry] takes [zr], [zi], [id] and [kode] and two [double *] outputs
    [bir] and [bii] for the single value; it returns the [int] status of the
    core; it has no count [n], no output sequences and no [nz]. *)
Theorem zbiry_interface (core : core_sem) :
  params Zbiry =
    [(TDouble, "zr"); (TDouble, "zi"); (TInt, "id"); (TInt, "kode");
     (TDoublePtr, "bir"); (TDoublePtr, "bii")]%string /\
  return_type Zbiry = TInt /\
  produces_run Zbiry = false /\ has_param Zbiry "n" = false /\ has_param Zbiry "fnu" = false /\
  has_nz_output Zbiry = false /\ has_param Zbiry "nz" = false /\
  (forall zr zi id kode bir bii (m0 : mem),
      zbiry core zr zi id kode bir bii m0 =
        ([EvCall Zbiry [VDouble zr; VDouble zi; VInt id; VInt kode; VDPtr bir; VDPtr bii]],
         core Zbiry [VDouble zr; VDouble zi; VInt id; VInt kode; VDPtr bir; VDPtr bii] m0)).
Proof. repeat (split; [reflexivity|]). reflexivity. Qed.

(** C2, as stated, fails: [zairy] is declared with an [int *nz] parameter,
    the underflow count, and passes it to the core as the seventh argument. *)
Lemma zairy_has_nz_output :
  has_nz_output Zairy = true /\
  nth_error (params Zairy) 6 = Some (TIntPtr, "nz"%string) /\
  events (zairy Demo.core 1%float 0%float 0 1 Demo.cyr Demo.cyi Demo.nz Demo.memory) =
    [EvCall Zairy [VDouble 1%float; VDouble 0%float; VInt 0; VInt 1;
                   VDPtr Demo.cyr; VDPtr Demo.cyi; VIPtr Demo.nz]].
Proof. repeat split. Qed.

(** C2, amended: [zairy] takes [zr], [zi], [id], [kode], two [double *]
    outputs [air] and [aii] for the single value and an [int *nz] output; it
    has no order [fnu], no count [n] and no output sequences; it forwards all
    seven arguments and returns the [int] status of the core. *)
Theorem zairy_interface (core : core_sem) :
  params Zairy =
    [(TDouble, "zr"); (TDouble, "zi"); (TInt, "id"); (TInt, "kode");
     (TDoublePtr, "air"); (TDoublePtr, "aii"); (TIntPtr, "nz")]%string /\
  return_type Zairy = TInt /\
  produces_run Zairy = false /\ has_param Zairy "n" = false /\ has_param Zairy "fnu" = false /\
  has_nz_output Zairy = true /\
  (forall zr zi id kode air aii nz (m0 : mem),
      zairy core zr zi id kode air aii nz m0 =
        ([EvCall Zairy [VDouble zr; VDouble zi; VInt id; VInt kode;
                        VDPtr air; VDPtr aii; VIPtr nz]],
         core Zairy [VDouble zr; VDouble zi; VInt id; VInt kode;
                     VDPtr air; VDPtr aii; VIPtr nz] m0)).
Proof. repeat (split; [reflexivity|]). reflexivity. Qed.

(** ** Sequences of calls of the exported functions *)

Lemma uncurry_well_typed (ts : list ctype) (R : Type) (f : arrow ts R) (vs : list value) (r : R) :
  uncurry ts f vs = Some r -> well_typed vs ts = true.
Proof.
  revert f vs. induction ts as [|t ts IH]; intros f [|v vs]; simpl; try done.
  destruct t, v; simpl; try done; apply IH.
Qed.

Lemma well_typed_length (vs : list value) (ts : list ctype) :
  well_typed vs ts = true -> length vs = length ts.
Proof.
  revert ts. induction vs as [|v vs IH]; intros [|t ts]; simpl; try done.
  intros H. apply andb_true_iff in H as [_ H]. by rewrite (IH _ H).
Qed.

Lemma invoke_inv (core : core_sem) (e : entry) (args : list value) (p : M cint) :
  invoke core e args = Some p ->
  well_typed args (param_types e) = true /\ p = call_core core e args.
Proof.
  intros H. assert (Hwt : well_typed args (param_types e) = true).
  { unfold invoke in H. by apply uncurry_well_typed in H. }
  split; [done|]. rewrite (invoke_call_core _ _ _ Hwt) in H. by injection H.
Qed.

Lemma call_all_cons_inv (core : core_sem) (e : entry) (args : list value)
    (cs : list request) (p : M (list cint)) :
  call_all (invoke core) ((e, args) :: cs) = Some p ->
  well_typed args (param_types e) = true /\
  exists rest : M (list cint),
    call_all (invoke core) cs = Some rest /\
    forall m : mem,
      events (p m) =
        EvCall e args ::
          match core e args m with
          | Some (_, m1) => events (rest m1)
          | None => []
          end /\
      outcome (p m) =
        match core e args m with
        | Some (s, m1) =>
            match outcome (rest m1) with
            | Some (ss, m2) => Some (s :: ss, m2)
            | None => None
            end
        | None => None
        end.
Proof.
  simpl. destruct (invoke core e args) as [q|] eqn:Hq; [|done].
  destruct (call_all (invoke core) cs) as [rest|]; [|done].
  intros [= <-]. apply invoke_inv in Hq as [Hwt ->].
  split; [done|]. exists rest. split; [done|]. intros m.
  unfold events, outcome, bind, call_core. simpl.
  destruct (core e args m) as [[s m1]|]; simpl; [|done].
  destruct (rest m1) as [t [[ss m2]|]]; simpl; by rewrite ?app_nil_r.
Qed.

Lemma calls_cons_call (e : entry) (args : list value) (t : list event) :
  calls (EvCall e args :: t) = (e, args) :: calls t.
Proof. reflexivity. Qed.

Lemma accesses_cons_call (e : entry) (args : list value) (t : list event) :
  accesses (EvCall e args :: t) = accesses t.
Proof. unfold accesses. by rewrite filter_cons_False. Qed.

(** X1: a sequence of calls of exported functions yields what the core
    yields when it is run on the same requests in the same order with the
    memory threaded through: the statuses are the core's, in order, and the
    sequence does not return as soon as one core call does not. *)
Theorem call_all_core_fold (core : core_sem) (cs : list request) (p : M (list cint)) (m : mem) :
  call_all (invoke core) cs = Some p ->
  outcome (p m) = core_fold core cs m.
Proof.
  revert p m. induction cs as [|[e args] cs IH]; intros p m H.
  - simpl in H. by injection H as <-.
  - apply call_all_cons_inv in H as [_ [rest [Hrest Hp]]].
    destruct (Hp m) as [_ ->]. simpl.
    destruct (core e args m) as [[s m1]|]; [|done].
    by rewrite (IH _ _ Hrest).
Qed.

Lemma call_all_core_fold_witness :
  exists p : M (list cint),
    call_all (invoke Demo.core) [DemoCalls.good; DemoCalls.airy] = Some p /\
    outcome (p Demo.memory) =
      core_fold Demo.core [DemoCalls.good; DemoCalls.airy] Demo.memory.
Proof.
  eexists. split; [reflexivity|].
  apply (call_all_core_fold Demo.core [DemoCalls.good; DemoCalls.airy]).
  reflexivity.
Defined.

(** X2: whatever the core does, the events of a sequence of calls of exported
    functions are core calls only (no load, no store), and the calls made are
    an initial part of the calls requested, in the order requested. *)
Theorem call_all_calls_prefix (core : core_sem) (cs : list request) (p : M (list cint)) (m : mem) :
  call_all (invoke core) cs = Some p ->
  accesses (events (p m)) = [] /\
  length (calls (events (p m))) = length (events (p m)) /\
  exists later : list request, cs = calls (events (p m)) ++ later.
Proof.
  revert p m. induction cs as [|[e args] cs IH]; intros p m H.
  - simpl in H. injection H as <-. repeat split. by exists [].
  - apply call_all_cons_inv in H as [_ [rest [Hrest Hp]]].
    destruct (Hp m) as [-> _]. rewrite accesses_cons_call, calls_cons_call.
    destruct (core e args m) as [[s m1]|].
    + destruct (IH _ m1 Hrest) as [Ha [Hl [later Hlater]]].
      split; [done|]. split; [simpl; by rewrite Hl|].
      exists later. simpl. by rewrite <- Hlater.
    + repeat split. by exists cs.
Qed.

Lemma call_all_calls_prefix_witness :
  exists p : M (list cint),
    call_all (invoke Demo.core) [DemoCalls.good; DemoCalls.bad; DemoCalls.airy] = Some p /\
    accesses (events (p Demo.memory)) = [] /\
    length (calls (events (p Demo.memory))) = length (events (p Demo.memory)) /\
    exists later : list request,
      [DemoCalls.good; DemoCalls.bad; DemoCalls.airy] = calls (events (p Demo.memory)) ++ later.
Proof.
  eexists. split; [reflexivity|].
  apply (call_all_calls_prefix Demo.core [DemoCalls.good; DemoCalls.bad; DemoCalls.airy]).
  reflexivity.
Defined.

(** X3: when a sequence of calls of exported functions returns, every
    requested call was made, once and in order, and there is one status per
    call. *)
Theorem call_all_returns_all_called (core : core_sem) (cs : list request) (p : M (list cint))
    (m m' : mem) (ss : list cint) :
  call_all (invoke core) cs = Some p ->
  outcome (p m) = Some (ss, m') ->
  calls (events (p m)) = cs /\ length ss = length cs.
Proof.
  revert p m ss. induction cs as [|[e args] cs IH]; intros p m ss H Hout.
  - simpl in H. injection H as <-. by injection Hout as <- _.
  - apply call_all_cons_inv in H as [_ [rest [Hrest Hp]]].
    destruct (Hp m) as [He Ho]. rewrite Ho in Hout. rewrite He, calls_cons_call.
    destruct (core e args m) as [[s m1]|]; [|done].
    destruct (outcome (rest m1)) as [[ss1 m2]|] eqn:Hr; [|done].
    injection Hout as <- <-.
    destruct (IH _ _ _ Hrest Hr) as [-> Hlen]. split; [done|]. simpl. by rewrite Hlen.
Qed.

Lemma call_all_returns_all_called_witness :
  exists p : M (list cint),
    call_all (invoke Demo.core) [DemoCalls.good; DemoCalls.airy] = Some p /\
    outcome (p Demo.memory) =
      Some ([0; 0], Mem (<[100 := 0.375%float]> (doubles Demo.memory_after))
                        (ints Demo.memory_after)) /\
    calls (events (p Demo.memory)) = [DemoCalls.good; DemoCalls.airy] /\
    length [0; 0] = length [DemoCalls.good; DemoCalls.airy].
Proof.
  eexists. split; [reflexivity|].
  assert (H : forall q, call_all (invoke Demo.core) [DemoCalls.good; DemoCalls.airy] = Some q ->
              outcome (q Demo.memory) =
                Some ([0; 0], Mem (<[100 := 0.375%float]> (doubles Demo.memory_after))
                                  (ints Demo.memory_after))).
  { intros q [= <-]. vm_compute. reflexivity. }
  split; [apply H; reflexivity|].
  apply (call_all_returns_all_called Demo.core [DemoCalls.good; DemoCalls.airy] _
           Demo.memory _ _ eq_refl (H _ eq_refl)).
Defined.

(** X4: when a sequence of calls of exported functions does not return, the
    last call made is a core call that did not return: the calls before it
    all returned, and no call after it was made. *)
Theorem call_all_stops_at_failure (core : core_sem) (cs : list request) (p : M (list cint))
    (m : mem) :
  call_all (invoke core) cs = Some p ->
  outcome (p m) = None ->
  exists (before : list request) (e : entry) (args : list value) (after : list request)
         (ss : list cint) (m1 : mem),
    cs = before ++ (e, args) :: after /\
    calls (events (p m)) = before ++ [(e, args)] /\
    core_fold core before m = Some (ss, m1) /\
    core e args m1 = None.
Proof.
  revert p m. induction cs as [|[e args] cs IH]; intros p m H Hout.
  - simpl in H. by injection H as <-.
  - apply call_all_cons_inv in H as [_ [rest [Hrest Hp]]].
    destruct (Hp m) as [He Ho]. rewrite Ho in Hout. rewrite He, calls_cons_call.
    destruct (core e args m) as [[s m1]|] eqn:Hc.
    + destruct (outcome (rest m1)) as [[ss1 m2]|] eqn:Hr; [done|].
      destruct (IH _ _ Hrest Hr) as (before & e' & args' & after & ss & m3 & -> & -> & Hf & Hn).
      exists ((e, args) :: before), e', args', after, (s :: ss), m3.
      repeat split; [|done]. simpl. by rewrite Hc, Hf.
    + by exists [], e, args, cs, [], m.
Qed.

Lemma call_all_stops_at_failure_witness :
  exists p : M (list cint),
    call_all (invoke Demo.core) [DemoCalls.good; DemoCalls.bad; DemoCalls.airy] = Some p /\
    outcome (p Demo.memory) = None /\
    exists (before : list request) (e : entry) (args : list value) (after : list request)
           (ss : list cint) (m1 : mem),
      [DemoCalls.good; DemoCalls.bad; DemoCalls.airy] = before ++ (e, args) :: after /\
      calls (events (p Demo.memory)) = before ++ [(e, args)] /\
      core_fold Demo.core before Demo.memory = Some (ss, m1) /\
      Demo.core e args m1 = None.
Proof.
  eexists. split; [reflexivity|].
  assert (H : forall q,
              call_all (invoke Demo.core) [DemoCalls.good; DemoCalls.bad; DemoCalls.airy] = Some q ->
              outcome (q Demo.memory) = None).
  { intros q [= <-]. vm_compute. reflexivity. }
  split; [apply H; reflexivity|].
  apply (call_all_stops_at_failure Demo.core [DemoCalls.good; DemoCalls.bad; DemoCalls.airy] _
           Demo.memory eq_refl (H _ eq_refl)).
Defined.

(** X5: a property of the memory that every requested core call preserves is
    preserved by the whole sequence of calls of exported functions: the
    exported functions change nothing in the memory themselves. *)
Theorem call_all_preserves (core : core_sem) (P : mem -> Prop) (cs : list request)
    (p : M (list cint)) (m m' : mem) (ss : list cint) :
  (forall (e : entry) (args : list value) (m0 m1 : mem) (s : cint),
      In (e, args) cs -> core e args m0 = Some (s, m1) -> P m0 -> P m1) ->
  call_all (invoke core) cs = Some p ->
  outcome (p m) = Some (ss, m') ->
  P m -> P m'.
Proof.
  revert p m ss. induction cs as [|[e args] cs IH]; intros p m ss Hcore H Hout HP.
  - simpl in H. injection H as <-. by injection Hout as _ <-.
  - apply call_all_cons_inv in H as [_ [rest [Hrest Hp]]].
    destruct (Hp m) as [_ Ho]. rewrite Ho in Hout.
    destruct (core e args m) as [[s m1]|] eqn:Hc; [|done].
    destruct (outcome (rest m1)) as [[ss1 m2]|] eqn:Hr; [|done].
    injection Hout as _ <-.
    apply (IH rest m1 ss1); [|done|done|].
    + intros e' args' m0 m3 s' Hin. apply Hcore. by right.
    + apply (Hcore e args m m1 s); [by left|done|done].
Qed.

Lemma call_all_preserves_witness :
  exists p : M (list cint),
    call_all (invoke DemoCalls.tick_core) [DemoCalls.good; DemoCalls.bad] = Some p /\
    outcome (p Demo.memory) =
      Some ([0; 0], Mem (doubles Demo.memory) (<[300 := 1]> (ints Demo.memory))) /\
    doubles (Mem (doubles Demo.memory) (<[300 := 1]> (ints Demo.memory))) = doubles Demo.memory.
Proof.
  eexists. split; [reflexivity|].
  assert (H : forall q,
              call_all (invoke DemoCalls.tick_core) [DemoCalls.good; DemoCalls.bad] = Some q ->
              outcome (q Demo.memory) =
                Some ([0; 0], Mem (doubles Demo.memory) (<[300 := 1]> (ints Demo.memory)))).
  { intros q [= <-]. vm_compute. reflexivity. }
  split; [apply H; reflexivity|].
  eapply (call_all_preserves DemoCalls.tick_core (fun m => doubles m = doubles Demo.memory)
            [DemoCalls.good; DemoCalls.bad] _ Demo.memory
            (Mem (doubles Demo.memory) (<[300 := 1]> (ints Demo.memory))) [0; 0]).
  - intros e args m0 m1 s _ [= _ <-] H0. exact H0.
  - reflexivity.
  - apply H. reflexivity.
  - reflexivity.
Defined.

(** X7: an argument list that an exported function accepts has the declared
    number of arguments: 9 for [zbesh], 8 for [zbesi], [zbesj] and [zbesk],
    10 for [zbesy], 7 for [zairy], 6 for [zbiry]; a list of another length is
    not a call. *)
Theorem invoke_arity (core : core_sem) (e : entry) (args : list value) (p : M cint) :
  invoke core e args = Some p -> length args = arity e.
Proof.
  intros H. apply invoke_inv in H as [Hwt _].
  rewrite (well_typed_length _ _ Hwt). by destruct e.
Qed.

Lemma invoke_arity_witness :
  length (snd DemoCalls.airy) = arity Zairy.
Proof.
  apply (invoke_arity Demo.core Zairy (snd DemoCalls.airy)
           (call_core Demo.core Zairy (snd DemoCalls.airy))).
  reflexivity.
Defined.
